(** * Stream-name construction of the USD-M futures websocket client

    A shallow embedding of [binance/websocket/um_futures/websocket_client.py]
    (class [UMFuturesWebsocketClient]) and of the call made by
    [examples/websocket/um_futures/partial_book_depth.py], followed by a model
    of the subscription engine the convenience methods hand their stream
    names to. *)

From Stdlib Require Import ZArith NArith Ascii String DecimalString DecimalPos DecimalZ.
From stdpp Require Import base tactics option list gmap.

(** ** Python [str] values *)

Module PythonStr.

Local Open Scope N_scope.

(** A Python [str] is a sequence of Unicode code points. *)
Definition code_point := N.
Definition str := list code_point.

(** String literals of the source are ASCII; [lit] reads one as code points. *)
Definition lit (s : string) : str :=
  map N_of_ascii (list_ascii_of_string s).
Arguments lit s%_string : simpl never.

Definition in_range (lo hi c : code_point) : bool := (lo <=? c) && (c <=? hi).
Arguments in_range (lo hi c)%_N.

Definition is_ascii (s : str) : Prop := Forall (fun c => c < 128) s.

(** Case mapping of one code point, as Python's [str.lower] and [str.upper]
    apply it (the full Unicode mapping, so one code point may become several).
    The table covers the blocks Basic Latin and Latin-1 Supplement
    (U+0000..U+00FF) and is exact there.  Code points above U+00FF are
    outside the table and are left as they are, which [str.lower] and
    [str.upper] do not do for letters with case (Cyrillic, Greek); every
    result below that depends on the value of [lower] or [upper] is
    therefore stated for strings within Latin-1 or ASCII. *)
Definition lower_cp (c : code_point) : list code_point :=
  if in_range 0x41 0x5A c then [c + 0x20]                      (* A..Z *)
  else if in_range 0xC0 0xDE c && negb (c =? 0xD7) then [c + 0x20]
  else [c].

Definition upper_cp (c : code_point) : list code_point :=
  if in_range 0x61 0x7A c then [c - 0x20]                      (* a..z *)
  else if c =? 0xB5 then [0x39C]                               (* micro sign *)
  else if c =? 0xDF then [0x53; 0x53]                          (* sharp s -> SS *)
  else if in_range 0xE0 0xFE c && negb (c =? 0xF7) then [c - 0x20]
  else if c =? 0xFF then [0x178]
  else [c].

(** [s.lower()], which the methods call on a symbol, and [s.upper()], with
    which the letter-case properties compare it. *)
Definition lower (s : str) : str := flat_map lower_cp s.
Definition upper (s : str) : str := flat_map upper_cp s.

(** [str(n)] for an [int]: the decimal digits, with a leading minus sign for
    a negative number.  This is what an f-string field [{n}] renders. *)
Definition str_of_int (n : Z) : str :=
  lit (NilZero.string_of_int (Z.to_int n)).

Arguments lower s : simpl never.
Arguments upper s : simpl never.
Arguments str_of_int n : simpl never.

End PythonStr.

Import PythonStr.

Local Open Scope Z_scope.

(** ** The base class interface *)

(** [Union[str, List[str]]]: the [symbols] parameter of [partial_book_depth]
    and the first argument of [live_subscribe]. *)
Inductive str_or_list : Type :=
  | PyStr (s : str)
  | PyList (l : list str).

(** [**kwargs]: keyword names with the objects bound to them, in call order. *)
Definition kwargs_of (Obj : Type) : Type := list (str * Obj).

(** [BinanceWebsocketClient], the base class of the client, defined in
    [binance/websocket/websocket_client.py].  The subclass uses two of its
    members, the base constructor and [live_subscribe]; they are the
    operations of an interface here, each acting on the client object
    [self], and every result below holds for all implementations of it.
    [Obj] is the type of Python objects passed by reference (callbacks,
    keyword values). *)
Class BinanceWebsocketClient (Obj Client : Type) : Type := {
  base_init : str -> Client;
  live_subscribe : Client -> str_or_list -> Z -> Obj -> kwargs_of Obj -> Client
}.

(** ** [UMFuturesWebsocketClient] *)

Section UMFuturesWebsocketClient.
Context {Obj Client : Type} {B : BinanceWebsocketClient Obj Client}.

Implicit Types (self : Client) (id : Z) (callback : Obj)
  (kwargs : kwargs_of Obj).

(** [__init__(self, stream_url="wss://fstream.binance.com")]; [None] is the
    omitted argument. *)
Definition __init__ (stream_url : option str) : Client :=
  base_init (default (lit "wss://fstream.binance.com") stream_url).

Definition agg_trade self (symbol : str) id callback kwargs : Client :=
  live_subscribe self (PyStr (lower symbol ++ lit "@aggTrade")) id callback kwargs.

Definition mark_price self (symbol : str) id (speed : Z) callback kwargs : Client :=
  live_subscribe self
    (PyStr (lower symbol ++ lit "@markPrice@" ++ str_of_int speed ++ lit "s"))
    id callback kwargs.

Definition kline self (symbol : str) id (interval : str) callback kwargs : Client :=
  live_subscribe self
    (PyStr (lower symbol ++ lit "@kline_" ++ interval)) id callback kwargs.

Definition continuous_kline self (pair : str) id (contractType interval : str)
    callback kwargs : Client :=
  live_subscribe self
    (PyStr (lower pair ++ lit "_" ++ contractType ++ lit "@continuousKline_" ++ interval))
    id callback kwargs.

(** [symbol=None]: [None] is Python's [None], also the default. *)
Definition mini_ticker self id callback (symbol : option str) kwargs : Client :=
  match symbol with
  | None => live_subscribe self (PyStr (lit "!miniTicker@arr")) id callback kwargs
  | Some symbol =>
      live_subscribe self (PyStr (lower symbol ++ lit "@miniTicker")) id callback kwargs
  end.

Definition ticker self id callback (symbol : option str) kwargs : Client :=
  match symbol with
  | None => live_subscribe self (PyStr (lit "!ticker@arr")) id callback kwargs
  | Some symbol =>
      live_subscribe self (PyStr (lower symbol ++ lit "@ticker")) id callback kwargs
  end.

Definition book_ticker self id callback (symbol : option str) kwargs : Client :=
  match symbol with
  | None => live_subscribe self (PyStr (lit "!bookTicker")) id callback kwargs
  | Some symbol =>
      live_subscribe self (PyStr (lower symbol ++ lit "@bookTicker")) id callback kwargs
  end.

Definition liquidation_order self id callback (symbol : option str) kwargs : Client :=
  match symbol with
  | None => live_subscribe self (PyStr (lit "!forceOrder@arr")) id callback kwargs
  | Some symbol =>
      live_subscribe self (PyStr (lower symbol ++ lit "@forceOrder")) id callback kwargs
  end.

(** [isinstance(symbols, list)] selects the comprehension; any other value
    of the annotated type is a single [str]. *)
Definition partial_book_depth self (symbols : str_or_list) id (level speed : Z)
    callback kwargs : Client :=
  let streams :=
    match symbols with
    | PyList symbols =>
        PyList (map (fun s => lower s ++ lit "@depth" ++ str_of_int level
                                ++ lit "@" ++ str_of_int speed ++ lit "ms") symbols)
    | PyStr symbols =>
        PyStr (lower symbols ++ lit "@depth" ++ str_of_int level
                 ++ lit "@" ++ str_of_int speed ++ lit "ms")
    end in
  live_subscribe self streams id callback kwargs.

(** [speed] carries no annotation; it is the millisecond figure of the
    docstring, an [int] as in [partial_book_depth]. *)
Definition diff_book_depth self (symbol : str) id (speed : Z) callback kwargs : Client :=
  live_subscribe self
    (PyStr (lower symbol ++ lit "@depth@" ++ str_of_int speed ++ lit "ms"))
    id callback kwargs.

Definition composite_index self (symbol : str) id callback kwargs : Client :=
  live_subscribe self (PyStr (lower symbol ++ lit "@compositeIndex")) id callback kwargs.

Definition user_data self (listen_key : str) id callback kwargs : Client :=
  live_subscribe self (PyStr listen_key) id callback kwargs.

End UMFuturesWebsocketClient.

(** ** The recording client *)

(** A call received by the base class. *)
Inductive base_call (Obj : Type) : Type :=
  | CallInit (stream_url : str)
  | CallLiveSubscribe (stream : str_or_list) (id : Z) (callback : Obj)
      (kwargs : kwargs_of Obj).
Arguments CallInit {Obj} stream_url.
Arguments CallLiveSubscribe {Obj} stream id callback kwargs.

(** The client whose state is the sequence of base-class calls made on it so
    far, oldest first: the base class that does nothing but take note. *)
Definition recorder (Obj : Type) : Type := list (base_call Obj).

#[export] Instance recording_client (Obj : Type) :
    BinanceWebsocketClient Obj (recorder Obj) := {|
  base_init stream_url := [CallInit stream_url];
  live_subscribe self stream id callback kwargs :=
    self ++ [CallLiveSubscribe stream id callback kwargs]
|}.

(** Carrying a recorded sequence of calls out on a client of any base class. *)
Definition perform {Obj Client : Type} {B : BinanceWebsocketClient Obj Client}
    (self : Client) (c : base_call Obj) : Client :=
  match c with
  | CallInit stream_url => base_init stream_url
  | CallLiveSubscribe stream id callback kwargs =>
      live_subscribe self stream id callback kwargs
  end.

Definition perform_all {Obj Client : Type} {B : BinanceWebsocketClient Obj Client}
    (self : Client) (cs : list (base_call Obj)) : Client :=
  foldl perform self cs.

Definition call_callback {Obj : Type} (c : base_call Obj) : option Obj :=
  match c with
  | CallInit _ => None
  | CallLiveSubscribe _ _ callback _ => Some callback
  end.

(** ** Method calls *)

(** A call of one of the twelve convenience methods with its arguments. *)
Inductive method_call (Obj : Type) : Type :=
  | AggTrade (symbol : str) (id : Z) (callback : Obj) (kwargs : kwargs_of Obj)
  | MarkPrice (symbol : str) (id : Z) (speed : Z) (callback : Obj) (kwargs : kwargs_of Obj)
  | Kline (symbol : str) (id : Z) (interval : str) (callback : Obj) (kwargs : kwargs_of Obj)
  | ContinuousKline (pair : str) (id : Z) (contractType interval : str) (callback : Obj)
      (kwargs : kwargs_of Obj)
  | MiniTicker (id : Z) (callback : Obj) (symbol : option str) (kwargs : kwargs_of Obj)
  | Ticker (id : Z) (callback : Obj) (symbol : option str) (kwargs : kwargs_of Obj)
  | BookTicker (id : Z) (callback : Obj) (symbol : option str) (kwargs : kwargs_of Obj)
  | LiquidationOrder (id : Z) (callback : Obj) (symbol : option str) (kwargs : kwargs_of Obj)
  | PartialBookDepth (symbols : str_or_list) (id : Z) (level speed : Z) (callback : Obj)
      (kwargs : kwargs_of Obj)
  | DiffBookDepth (symbol : str) (id : Z) (speed : Z) (callback : Obj) (kwargs : kwargs_of Obj)
  | CompositeIndex (symbol : str) (id : Z) (callback : Obj) (kwargs : kwargs_of Obj)
  | UserData (listen_key : str) (id : Z) (callback : Obj) (kwargs : kwargs_of Obj).
Arguments AggTrade {Obj}.
Arguments MarkPrice {Obj}.
Arguments Kline {Obj}.
Arguments ContinuousKline {Obj}.
Arguments MiniTicker {Obj}.
Arguments Ticker {Obj}.
Arguments BookTicker {Obj}.
Arguments LiquidationOrder {Obj}.
Arguments PartialBookDepth {Obj}.
Arguments DiffBookDepth {Obj}.
Arguments CompositeIndex {Obj}.
Arguments UserData {Obj}.

(** [self.<method>(<arguments>)]. *)
Definition invoke {Obj Client : Type} {B : BinanceWebsocketClient Obj Client}
    (self : Client) (m : method_call Obj) : Client :=
  match m with
  | AggTrade symbol id callback kwargs => agg_trade self symbol id callback kwargs
  | MarkPrice symbol id speed callback kwargs => mark_price self symbol id speed callback kwargs
  | Kline symbol id interval callback kwargs => kline self symbol id interval callback kwargs
  | ContinuousKline symbol id contractType interval callback kwargs =>
      continuous_kline self symbol id contractType interval callback kwargs
  | MiniTicker id callback symbol kwargs => mini_ticker self id callback symbol kwargs
  | Ticker id callback symbol kwargs => ticker self id callback symbol kwargs
  | BookTicker id callback symbol kwargs => book_ticker self id callback symbol kwargs
  | LiquidationOrder id callback symbol kwargs =>
      liquidation_order self id callback symbol kwargs
  | PartialBookDepth symbols id level speed callback kwargs =>
      partial_book_depth self symbols id level speed callback kwargs
  | DiffBookDepth symbol id speed callback kwargs =>
      diff_book_depth self symbol id speed callback kwargs
  | CompositeIndex symbol id callback kwargs => composite_index self symbol id callback kwargs
  | UserData listen_key id callback kwargs => user_data self listen_key id callback kwargs
  end.

(** The callback the caller supplied. *)
Definition callback_argument {Obj : Type} (m : method_call Obj) : Obj :=
  match m with
  | AggTrade _ _ callback _ | MarkPrice _ _ _ callback _ | Kline _ _ _ callback _
  | ContinuousKline _ _ _ _ callback _ | MiniTicker _ callback _ _
  | Ticker _ callback _ _ | BookTicker _ callback _ _ | LiquidationOrder _ callback _ _
  | PartialBookDepth _ _ _ _ callback _ | DiffBookDepth _ _ _ callback _
  | CompositeIndex _ _ callback _ | UserData _ _ callback _ => callback
  end.

(** The symbol or pair strings among the arguments (none for [user_data] and
    for a ticker call on the whole market). *)
Definition symbol_arguments {Obj : Type} (m : method_call Obj) : list str :=
  match m with
  | AggTrade symbol _ _ _ | MarkPrice symbol _ _ _ _ | Kline symbol _ _ _ _
  | ContinuousKline symbol _ _ _ _ _ | DiffBookDepth symbol _ _ _ _
  | CompositeIndex symbol _ _ _ => [symbol]
  | MiniTicker _ _ symbol _ | Ticker _ _ symbol _ | BookTicker _ _ symbol _
  | LiquidationOrder _ _ symbol _ => option_list symbol
  | PartialBookDepth (PyStr symbol) _ _ _ _ _ => [symbol]
  | PartialBookDepth (PyList symbols) _ _ _ _ _ => symbols
  | UserData _ _ _ _ => []
  end.

(** The same call with [f] applied to each symbol or pair argument. *)
Definition map_symbols {Obj : Type} (f : str -> str) (m : method_call Obj) : method_call Obj :=
  match m with
  | AggTrade symbol id callback kwargs => AggTrade (f symbol) id callback kwargs
  | MarkPrice symbol id speed callback kwargs => MarkPrice (f symbol) id speed callback kwargs
  | Kline symbol id interval callback kwargs => Kline (f symbol) id interval callback kwargs
  | ContinuousKline symbol id contractType interval callback kwargs =>
      ContinuousKline (f symbol) id contractType interval callback kwargs
  | MiniTicker id callback symbol kwargs => MiniTicker id callback (f <$> symbol) kwargs
  | Ticker id callback symbol kwargs => Ticker id callback (f <$> symbol) kwargs
  | BookTicker id callback symbol kwargs => BookTicker id callback (f <$> symbol) kwargs
  | LiquidationOrder id callback symbol kwargs =>
      LiquidationOrder id callback (f <$> symbol) kwargs
  | PartialBookDepth (PyStr symbol) id level speed callback kwargs =>
      PartialBookDepth (PyStr (f symbol)) id level speed callback kwargs
  | PartialBookDepth (PyList symbols) id level speed callback kwargs =>
      PartialBookDepth (PyList (map f symbols)) id level speed callback kwargs
  | DiffBookDepth symbol id speed callback kwargs =>
      DiffBookDepth (f symbol) id speed callback kwargs
  | CompositeIndex symbol id callback kwargs => CompositeIndex (f symbol) id callback kwargs
  | UserData listen_key id callback kwargs => UserData listen_key id callback kwargs
  end.

(** ** The example script *)

Module PartialBookDepthExample.

(** [def message_handler(message): print(message)], with the printed lines
    as its result. *)
Definition message_handler (message : str) : list str := [message].

(** The call of lines 18 to 24 on [my_client]. *)
Definition subscribe_call {Client : Type}
    {B : BinanceWebsocketClient (str -> list str) Client} (my_client : Client) : Client :=
  partial_book_depth my_client
    (PyList [lit "bnbusdt"; lit "btcusdt"; lit "ethusdt"]) 1 10 100 message_handler [].

End PartialBookDepthExample.

(** ** The subscription engine behind [live_subscribe] *)

Module Core.

(** Modelled from the spec: the [state] field of a Subscription (section 3)
    of the engine behind [live_subscribe], whose implementation is missing. *)
Inductive sub_state : Type := Pending | Active | Unsubscribing | Removed.

(** Modelled from the spec: the supervisor's states (sections 3 and 4.2) of
    the missing engine. *)
Inductive conn_state : Type :=
  Disconnected | Connecting | Connected | Reconnecting | Closing.

(** Modelled from the spec: the error taxonomy of section 7. *)
Inductive error : Type :=
  | DuplicateSubscriptionId | UnknownSubscriptionId | MalformedFrame
  | CommandTimeout | ConnectionLost | ClientClosed.

(** Modelled from the spec: [Result<(), E>] of the registry operations. *)
Inductive result : Type := Ok | Err (e : error).

(** Modelled from the spec: the [kind] of a command (sections 3 and 6). *)
Inductive command_kind : Type := Subscribe | Unsubscribe.

(** Modelled from the spec: an outbound command,
    [{method, params: [streamName, ...], id}] (sections 3 and 6), without the
    time stamps of a PendingCommand. *)
Record command : Type := Command {
  cmd_id : Z;
  kind : command_kind;
  streams : list str
}.

#[export] Instance sub_state_eq_dec : EqDecision sub_state.
Proof. solve_decision. Defined.
#[export] Instance conn_state_eq_dec : EqDecision conn_state.
Proof. solve_decision. Defined.

Section Engine.
Context {Obj : Type}.

(** Modelled from the spec: a registry entry, the Subscription of section 3
    under its id, with the mark "to be replayed on next connect" that
    [add] sets while there is no connection (section 4.1). *)
Record subscription : Type := Subscription {
  streamNames : list str;
  callback : Obj;
  state : sub_state;
  replay_on_connect : bool
}.

(** Modelled from the spec: the missing engine's state: the registry
    (id to entry), the supervisor's state and backoff attempt counter, the
    CommandChannel's queue of commands not yet sent and its table of
    commands awaiting acknowledgement, and [wire], the commands sent on the
    live connection since it was established, oldest first. *)
Record engine : Type := Engine {
  registry : gmap Z subscription;
  conn : conn_state;
  attempt : nat;
  queue : list command;
  pending : list command;
  wire : list command
}.

(** Modelled from the spec: a new client, before [start()]. *)
Definition init : engine :=
  {| registry := ∅; conn := Disconnected; attempt := 0;
     queue := []; pending := []; wire := [] |}.

Definition set_registry (r : gmap Z subscription) (σ : engine) : engine :=
  {| registry := r; conn := conn σ; attempt := attempt σ;
     queue := queue σ; pending := pending σ; wire := wire σ |}.

Definition enqueue (c : command) (σ : engine) : engine :=
  {| registry := registry σ; conn := conn σ; attempt := attempt σ;
     queue := queue σ ++ [c]; pending := pending σ; wire := wire σ |}.

Definition set_conn (c : conn_state) (n : nat) (σ : engine) : engine :=
  {| registry := registry σ; conn := c; attempt := n;
     queue := queue σ; pending := pending σ; wire := wire σ |}.

Definition set_state (st : sub_state) (s : subscription) : subscription :=
  {| streamNames := streamNames s; callback := callback s; state := st;
     replay_on_connect := replay_on_connect s |}.

(** Modelled from the spec: [add(id, streams, callback)] of the missing
    SubscriptionRegistry (section 4.1): it fails if [id] is already present
    and not [Removed]; otherwise it inserts a [Pending] entry and enqueues
    a Subscribe command if connected, else marks the entry to be replayed
    on next connect.  The result comes with the engine's state after the
    call. *)
Definition add (id : Z) (names : list str) (cb : Obj) (σ : engine) : result * engine :=
  let insert_pending :=
    if decide (conn σ = Connected) then
      enqueue (Command id Subscribe names)
        (set_registry (<[id := Subscription names cb Pending false]> (registry σ)) σ)
    else
      set_registry (<[id := Subscription names cb Pending true]> (registry σ)) σ in
  match registry σ !! id with
  | Some s =>
      if decide (state s = Removed) then (Ok, insert_pending)
      else (Err DuplicateSubscriptionId, σ)
  | None => (Ok, insert_pending)
  end.

(** Modelled from the spec: the entry point [subscribe(streams, id,
    callback)] of section 6 on a client that has not been stopped: the
    caller's call goes to the registry's [add] (section 2). *)
Definition subscribe (names : list str) (id : Z) (cb : Obj) (σ : engine) :
    result * engine :=
  add id names cb σ.

(** Modelled from the spec: [remove(id)] of the missing registry
    (section 4.1): it fails if [id] is absent; if connected it enqueues
    Unsubscribe and marks the entry [Unsubscribing]; if disconnected the
    entry is [Removed] at once, that is, purged. *)
Definition remove (id : Z) (σ : engine) : result * engine :=
  match registry σ !! id with
  | None => (Err UnknownSubscriptionId, σ)
  | Some s =>
      if decide (conn σ = Connected) then
        (Ok, enqueue (Command id Unsubscribe (streamNames s))
               (set_registry (<[id := set_state Unsubscribing s]> (registry σ)) σ))
      else (Ok, set_registry (delete id (registry σ)) σ)
  end.

(** Modelled from the spec: an entry of the registry is active. *)
Definition is_active (p : Z * subscription) : Prop := state p.2 = Active.

(** Modelled from the spec: [snapshot()] of the missing registry
    (section 4.1), the sequence of active Subscriptions with their ids. *)
Definition snapshot (σ : engine) : list (Z * subscription) :=
  filter is_active (map_to_list (registry σ)).

(** Modelled from the spec: the ids with their streams of the [Active]
    subscriptions, "the registry's active set". *)
Definition active_set (σ : engine) : gmap Z (list str) :=
  streamNames <$> filter is_active (registry σ).

(** Modelled from the spec: an entry is replayed on connect when it is
    active or was marked by [add] (sections 4.1 and 4.2). *)
Definition to_replay (p : Z * subscription) : Prop :=
  state p.2 = Active ∨ replay_on_connect p.2 = true.

#[local] Instance to_replay_dec p : Decision (to_replay p).
Proof. unfold to_replay. apply _. Defined.

(** Modelled from the spec: the Subscribe command of an entry, tagged with
    the entry's own id (section 4.2). *)
Definition replay_command (p : Z * subscription) : command :=
  Command p.1 Subscribe (streamNames p.2).

(** Modelled from the spec: what the supervisor replays on entering
    [Connected] (section 4.2): a Subscribe command, tagged with its
    original id, for each active subscription and for each entry that
    [add] marked while there was no connection. *)
Definition replay (σ : engine) : list command :=
  replay_command <$> filter to_replay (map_to_list (registry σ)).

Definition unmark (s : subscription) : subscription :=
  {| streamNames := streamNames s; callback := callback s; state := state s;
     replay_on_connect := false |}.

(** Modelled from the spec: entering [Connected] (section 4.2): the attempt
    counter is reset to 0 and the replay is sent on the new connection in
    the same step; the queue of caller commands is not touched by it. *)
Definition on_connected (σ : engine) : engine :=
  {| registry := unmark <$> registry σ; conn := Connected; attempt := 0;
     queue := queue σ; pending := pending σ ++ replay σ; wire := replay σ |}.

(** Modelled from the spec: the CommandChannel sends the oldest queued
    command on the live connection and tracks it until acknowledged
    (section 4.3). *)
Definition send_next (σ : engine) : option engine :=
  match queue σ with
  | c :: q =>
      if decide (conn σ = Connected) then
        Some {| registry := registry σ; conn := conn σ; attempt := attempt σ;
                queue := q; pending := pending σ ++ [c]; wire := wire σ ++ [c] |}
      else None
  | [] => None
  end.

(** Modelled from the spec: [Pending] becomes [Active] on acknowledgement
    (section 3, lifecycle). *)
Definition activate (s : subscription) : subscription :=
  match state s with
  | Pending => set_state Active s
  | _ => s
  end.

(** Modelled from the spec: the MessageRouter's acknowledgement path
    (section 4.4): an inbound acknowledgement is matched to a pending
    command by id; the command is resolved and the Subscription advances,
    [Pending] to [Active] for Subscribe, [Removed] and purged for
    Unsubscribe (section 3, lifecycle). *)
Definition acknowledge (id : Z) (σ : engine) : option engine :=
  if decide (conn σ = Connected) then
    match list_find (fun c => cmd_id c = id) (pending σ) with
    | Some (i, c) =>
        Some {| registry :=
                  match kind c with
                  | Subscribe => alter activate id (registry σ)
                  | Unsubscribe => delete id (registry σ)
                  end;
                conn := conn σ; attempt := attempt σ; queue := queue σ;
                pending := delete i (pending σ); wire := wire σ |}
    | None => None
    end
  else None.

(** Modelled from the spec: what drives the engine: the caller's calls,
    the CommandChannel sending, an acknowledgement arriving, and the
    supervisor's transitions of section 4.2 for a client that is not being
    stopped. *)
Inductive event : Type :=
  | EvSubscribe (names : list str) (id : Z) (cb : Obj)
  | EvUnsubscribe (id : Z)
  | EvSend
  | EvAck (id : Z)
  | EvConnect
  | EvConnectFailed
  | EvConnected
  | EvConnectionLost.

(** Modelled from the spec: one transition of the engine; [None] when the
    event cannot occur in the state.  A caller's call that fails leaves the
    state as it is. *)
Definition step (e : event) (σ : engine) : option engine :=
  match e with
  | EvSubscribe names id cb => Some (subscribe names id cb σ).2
  | EvUnsubscribe id => Some (remove id σ).2
  | EvSend => send_next σ
  | EvAck id => acknowledge id σ
  | EvConnect =>
      if decide (conn σ = Disconnected ∨ conn σ = Reconnecting)
      then Some (set_conn Connecting (attempt σ) σ) else None
  | EvConnectFailed =>
      if decide (conn σ = Connecting)
      then Some (set_conn Reconnecting (S (attempt σ)) σ) else None
  | EvConnected =>
      if decide (conn σ = Connecting) then Some (on_connected σ) else None
  | EvConnectionLost =>
      if decide (conn σ = Connected)
      then Some (set_conn Reconnecting (attempt σ) σ) else None
  end.

(** Modelled from the spec: a sequence of events, in order. *)
Fixpoint run (es : list event) (σ : engine) : option engine :=
  match es with
  | [] => Some σ
  | e :: es => match step e σ with Some σ' => run es σ' | None => None end
  end.

(** Modelled from the spec: the states a client started from [init] can be
    in. *)
Definition reachable (σ : engine) : Prop := ∃ es, run es init = Some σ.

(** Modelled from the spec: the events of the supervisor's reconnection
    loop between the loss of the connection and the next successful connect
    (section 4.2). *)
Definition is_backoff (e : event) : Prop := e = EvConnect ∨ e = EvConnectFailed.

(** Modelled from the spec: a drop followed by [failures] failed attempts
    and a successful one, with no caller action. *)
Definition reconnection (failures : nat) : list event :=
  EvConnectionLost :: concat (replicate failures [EvConnect; EvConnectFailed])
    ++ [EvConnect; EvConnected].

(** Modelled from the spec: the server's perspective: the subscriptions on
    the live connection after the commands sent on it, a Subscribe adding
    the id with its streams and an Unsubscribe removing it. *)
Definition server_view (cs : list command) : gmap Z (list str) :=
  foldl (fun m c => match kind c with
                    | Subscribe => <[cmd_id c := streams c]> m
                    | Unsubscribe => delete (cmd_id c) m
                    end) ∅ cs.

(** No entry is waiting for a connection: the mark of [add] is set on
    none. *)
Definition unmarked (σ : engine) : Prop :=
  ∀ id s, registry σ !! id = Some s → replay_on_connect s = false.

(** While connected no entry is marked: the marks are cleared on entering
    [Connected] and [add] sets none while connected. *)
Definition marks_only_offline (σ : engine) : Prop :=
  conn σ = Connected → unmarked σ.

End Engine.

Arguments subscription Obj : clear implicits.
Arguments engine Obj : clear implicits.
Arguments event Obj : clear implicits.

(** Modelled from the spec: the start of the end-to-end example of
    section 8: the client connects, the caller subscribes to
    ["btcusdt@aggTrade"] under id 1, the command is sent and acknowledged. *)
Definition example_session : list (event unit) :=
  [EvConnect; EvConnected; EvSubscribe [lit "btcusdt@aggTrade"] 1 tt; EvSend; EvAck 1].

Definition example_engine : engine unit :=
  default init (run example_session init).

End Core.

(** ** Stream names handed to the base class *)

(** The stream names of one base-class call: the string itself, or the
    elements of the list. *)
Definition call_streams {Obj : Type} (c : base_call Obj) : list str :=
  match c with
  | CallInit _ => []
  | CallLiveSubscribe (PyStr s) _ _ _ => [s]
  | CallLiveSubscribe (PyList l) _ _ _ => l
  end.

(** All stream names passed to [live_subscribe] on a recording client, in
    call order. *)
Definition subscribed {Obj : Type} (log : recorder Obj) : list str :=
  flat_map call_streams log.

(** The decimal digits [0] to [9]. *)
Definition is_digit (c : code_point) : Prop := (0x30 <= c <= 0x39)%N.

(** Code points of the blocks the case table covers. *)
Definition is_latin1 (s : str) : Prop := Forall (fun c => (c < 256)%N) s.

(** The twelve convenience methods. *)
Inductive method_name : Type :=
  | Magg_trade | Mmark_price | Mkline | Mcontinuous_kline | Mmini_ticker | Mticker
  | Mbook_ticker | Mliquidation_order | Mpartial_book_depth | Mdiff_book_depth
  | Mcomposite_index | Muser_data.

(** The method a call is a call of. *)
Definition method_of {Obj : Type} (m : method_call Obj) : method_name :=
  match m with
  | AggTrade _ _ _ _ => Magg_trade
  | MarkPrice _ _ _ _ _ => Mmark_price
  | Kline _ _ _ _ _ => Mkline
  | ContinuousKline _ _ _ _ _ _ => Mcontinuous_kline
  | MiniTicker _ _ _ _ => Mmini_ticker
  | Ticker _ _ _ _ => Mticker
  | BookTicker _ _ _ _ => Mbook_ticker
  | LiquidationOrder _ _ _ _ => Mliquidation_order
  | PartialBookDepth _ _ _ _ _ _ => Mpartial_book_depth
  | DiffBookDepth _ _ _ _ _ => Mdiff_book_depth
  | CompositeIndex _ _ _ _ => Mcomposite_index
  | UserData _ _ _ _ => Muser_data
  end.

(** The methods whose stream name is the lowercased symbol followed by a
    fixed suffix, or a fixed all-market name. *)
Definition fixed_suffix (k : method_name) : bool :=
  match k with
  | Magg_trade | Mmini_ticker | Mticker | Mbook_ticker | Mliquidation_order
  | Mcomposite_index => true
  | _ => false
  end.

(** The methods whose stream name ends in a string the caller supplies:
    the interval of [kline] and [continuous_kline], the whole name for
    [user_data]. *)
Definition caller_suffix (k : method_name) : bool :=
  match k with
  | Mkline | Mcontinuous_kline | Muser_data => true
  | _ => false
  end.

(** Every [str] argument of a call: the symbols, and the interval, contract
    type or listen key. *)
Definition str_arguments {Obj : Type} (m : method_call Obj) : list str :=
  match m with
  | Kline symbol _ interval _ _ => [symbol; interval]
  | ContinuousKline symbol _ contractType interval _ _ =>
      [symbol; contractType; interval]
  | UserData listen_key _ _ _ => [listen_key]
  | _ => symbol_arguments m
  end.

(** The intervals listed in the docstrings of [kline] and
    [continuous_kline]. *)
Definition intervals : list str :=
  [lit "1m"; lit "3m"; lit "5m"; lit "15m"; lit "30m"; lit "1h"; lit "2h"; lit "4h";
   lit "6h"; lit "8h"; lit "12h"; lit "1d"; lit "3d"; lit "1w"; lit "1M"].

(** * Properties *)

(** ** The string model on concrete values *)

Example lit_ex : lit "aZ@" = [0x61; 0x5A; 0x40]%N.
Proof. reflexivity. Qed.

Example lower_ex : lower (lit "BtcUSDT_1") = lit "btcusdt_1".
Proof. reflexivity. Qed.

Example upper_ex : upper (lit "BtcUSDT_1") = lit "BTCUSDT_1".
Proof. reflexivity. Qed.

Example sharp_s_ex :
  upper [0xDF%N] = lit "SS" /\ lower (lit "SS") = lit "ss" /\ lower [0xDF%N] = [0xDF%N].
Proof. repeat split; reflexivity. Qed.

Example str_of_int_ex :
  str_of_int 100 = lit "100" /\ str_of_int 0 = lit "0" /\ str_of_int (-5) = lit "-5".
Proof. repeat split; reflexivity. Qed.


Lemma lower_app (s t : str) : lower (s ++ t) = lower s ++ lower t.
Proof. apply flat_map_app. Qed.

Lemma upper_app (s t : str) : upper (s ++ t) = upper s ++ upper t.
Proof. apply flat_map_app. Qed.

Lemma lower_cons (c : code_point) (s : str) : lower (c :: s) = lower_cp c ++ lower s.
Proof. reflexivity. Qed.



Lemma is_latin1_check (l : str) :
  forallb (fun c => N.ltb c 256) l = true -> is_latin1 l.
Proof.
  intros H. apply Forall_forall. intros c Hc%list_elem_of_In.
  rewrite forallb_forall in H. by apply N.ltb_lt, H.
Qed.

Ltac latin1_lit := apply is_latin1_check; vm_compute; reflexivity.

(** ** Single methods *)





(** C6: the constructor without argument hands the base class the URL
    ["wss://fstream.binance.com"], with a [stream_url] argument exactly that
    URL, and does nothing besides that one call of the base constructor. *)
Theorem init_stream_url :
  forall (Obj Client : Type) (B : BinanceWebsocketClient Obj Client),
    __init__ None = base_init (lit "wss://fstream.binance.com")
    /\ (forall stream_url : str, __init__ (Some stream_url) = base_init stream_url)
    /\ __init__ (B := recording_client Obj) None
         = [CallInit (lit "wss://fstream.binance.com")]
    /\ (forall stream_url : str,
          __init__ (B := recording_client Obj) (Some stream_url) = [CallInit stream_url]).
Proof. intros. repeat split. Qed.





(** ** All twelve methods *)

(** C2: each convenience method is stateless string construction: the
    stream name(s), id, callback and keyword arguments it passes on are
    fixed by its explicit arguments alone, whatever the client and its
    state; on every client its whole effect is that single
    [live_subscribe] call, so it reads and writes no attribute itself. *)
Theorem methods_stateless :
  forall (Obj : Type) (m : method_call Obj),
    exists (stream : str_or_list) (id : Z) (callback : Obj) (kwargs : kwargs_of Obj),
      (forall (Client : Type) (B : BinanceWebsocketClient Obj Client) (self : Client),
          invoke self m = live_subscribe self stream id callback kwargs)
      /\ (forall log : recorder Obj,
            invoke log m = log ++ [CallLiveSubscribe stream id callback kwargs])
      /\ (forall (Client : Type) (B : BinanceWebsocketClient Obj Client) (self : Client),
            invoke self m = perform_all self (invoke (B := recording_client Obj) [] m)).
Proof.
  intros Obj m.
  destruct m as [| | | | ? ? [?|] ?| ? ? [?|] ?| ? ? [?|] ?| ? ? [?|] ?
                | [?|?] ? ? ? ? ?| | |];
    do 4 eexists; repeat split.
Qed.

(** C7: every convenience method hands the caller's callback object itself
    to [live_subscribe]; in the example script that object is
    [message_handler], the handler of one argument that prints the
    message. *)
Theorem callback_passed_unchanged :
  forall (Obj : Type) (m : method_call Obj),
    (exists (stream : str_or_list) (id : Z) (kwargs : kwargs_of Obj),
        (forall (Client : Type) (B : BinanceWebsocketClient Obj Client) (self : Client),
            invoke self m = live_subscribe self stream id (callback_argument m) kwargs)
        /\ (forall log : recorder Obj,
              invoke log m
                = log ++ [CallLiveSubscribe stream id (callback_argument m) kwargs]))
    /\ call_callback <$> PartialBookDepthExample.subscribe_call []
         = [Some PartialBookDepthExample.message_handler]
    /\ (forall message : str,
          PartialBookDepthExample.message_handler message = [message]).
Proof.
  intros Obj m. split; [|split; [reflexivity | intros; reflexivity]].
  destruct m as [| | | | ? ? [?|] ?| ? ? [?|] ?| ? ? [?|] ?| ? ? [?|] ?
                | [?|?] ? ? ? ? ?| | |];
    do 3 eexists; repeat split.
Qed.

(** ** Letter case *)


Lemma lower_cp_ascii (c : code_point) :
  (c < 128)%N -> lower_cp c = if in_range 0x41 0x5A c then [(c + 0x20)%N] else [c].
Proof.
  intros Hc. unfold lower_cp. destruct (in_range 0x41 0x5A c); [reflexivity|].
  unfold in_range. destruct (N.leb_spec 0xC0%N c); [lia|]. reflexivity.
Qed.




(** A symbol or pair argument reaches the stream name through [lower] only:
    calls that agree once their symbols are lowercased make the same
    [live_subscribe] call. *)
Lemma invoke_lowercased {Obj : Type} (log : recorder Obj) (m m' : method_call Obj) :
  map_symbols lower m = map_symbols lower m' -> invoke log m = invoke log m'.
Proof.
  destruct m as [| | | | ? ? [s|] ?| ? ? [s|] ?| ? ? [s|] ?| ? ? [s|] ?
                | [s|l] ? ? ? ? ?| | |],
           m' as [| | | | ? ? [s'|] ?| ? ? [s'|] ?| ? ? [s'|] ?| ? ? [s'|] ?
                | [s'|l'] ? ? ? ? ?| | |];
    cbn [map_symbols fmap option_fmap option_map]; intros H; try discriminate H;
    injection H as H; subst;
    cbn [invoke];
    unfold agg_trade, mark_price, kline, continuous_kline, mini_ticker, ticker,
      book_ticker, liquidation_order, partial_book_depth, diff_book_depth,
      composite_index, user_data;
    try congruence.
  do 2 f_equal.
  set (suffix := lit "@depth" ++ _).
  rewrite <- (map_map lower (fun t => t ++ suffix) l),
    <- (map_map lower (fun t => t ++ suffix) l').
  by rewrite H.
Qed.




(** ** The subscription engine *)

Section EngineFacts.
Import Core.
Context {Obj : Type}.
Implicit Types (σ : engine Obj) (s : subscription Obj) (es : list (event Obj)).

Lemma run_app es1 es2 σ : run (es1 ++ es2) σ = run es1 σ ≫= run es2.
Proof.
  revert σ. induction es1 as [|e es1 IH]; intros σ; simpl; [done|].
  destruct (step e σ); simpl; auto.
Qed.

Lemma add_marks id names cb σ :
  marks_only_offline σ → marks_only_offline (add id names cb σ).2.
Proof.
  intros Hinv. unfold add.
  assert (Hins : marks_only_offline
    (if decide (conn σ = Connected)
     then enqueue (Command id Subscribe names)
            (set_registry (<[id:=Subscription names cb Pending false]> (registry σ)) σ)
     else set_registry (<[id:=Subscription names cb Pending true]> (registry σ)) σ)).
  { case_decide as Hc; intros Hc' j s Hj; simpl in *; [|done].
    destruct (decide (id = j)) as [->|Hne].
    - rewrite lookup_insert_eq in Hj. by simplify_eq.
    - rewrite lookup_insert_ne in Hj by done. by eapply Hinv. }
  destruct (registry σ !! id) as [s|]; [|done].
  destruct (decide (state s = Removed)); simpl; done.
Qed.

Lemma remove_marks id σ : marks_only_offline σ → marks_only_offline (remove id σ).2.
Proof.
  intros Hinv. unfold remove. destruct (registry σ !! id) as [s|] eqn:Hs; [|done].
  case_decide as Hc; intros Hc' j s' Hj; simpl in *; [|done].
  destruct (decide (id = j)) as [->|Hne].
  - rewrite lookup_insert_eq in Hj. simplify_eq. simpl. by eapply Hinv.
  - rewrite lookup_insert_ne in Hj by done. by eapply Hinv.
Qed.

Lemma step_marks e σ σ' :
  step e σ = Some σ' → marks_only_offline σ → marks_only_offline σ'.
Proof.
  intros Hstep Hinv. destruct e; simpl in Hstep.
  - simplify_eq. by apply add_marks.
  - simplify_eq. by apply remove_marks.
  - unfold send_next in Hstep. destruct (queue σ); [done|].
    case_decide; simplify_eq. intros Hc j s Hj. by eapply Hinv.
  - unfold acknowledge in Hstep. case_decide as Hc; [|done].
    destruct (list_find _ _) as [[i c]|]; simplify_eq.
    intros _ j s Hj. simpl in Hj. destruct (kind c).
    + destruct (decide (id = j)) as [->|Hne].
      * rewrite lookup_alter_eq in Hj. apply fmap_Some in Hj as (s0 & Hs0 & ->).
        unfold activate. destruct (state s0); simpl; by eapply Hinv.
      * rewrite lookup_alter_ne in Hj by done. by eapply Hinv.
    + apply lookup_delete_Some in Hj as [_ Hj]. by eapply Hinv.
  - case_decide; simplify_eq. intros Hc. done.
  - case_decide; simplify_eq. intros Hc. done.
  - case_decide; simplify_eq. intros _ j s Hj. simpl in Hj.
    rewrite lookup_fmap in Hj. apply fmap_Some in Hj as (s0 & _ & ->). done.
  - case_decide; simplify_eq. intros Hc. done.
Qed.

Lemma run_marks es σ σ' :
  run es σ = Some σ' → marks_only_offline σ → marks_only_offline σ'.
Proof.
  revert σ. induction es as [|e es IH]; intros σ Hrun Hinv; simpl in Hrun.
  - by simplify_eq.
  - destruct (step e σ) as [σ1|] eqn:Hstep; [|done].
    eapply IH; [done|]. by eapply step_marks.
Qed.

Lemma reachable_marks σ : reachable σ → marks_only_offline σ.
Proof.
  intros [es Hrun]. eapply run_marks; [done|]. intros Hc. done.
Qed.

(** The reconnection loop changes the supervisor's state and nothing
    else. *)
Lemma run_backoff es σ σ' :
  Forall is_backoff es → run es σ = Some σ' →
  registry σ' = registry σ ∧ queue σ' = queue σ ∧ pending σ' = pending σ
  ∧ wire σ' = wire σ.
Proof.
  intros Hes. revert σ. induction Hes as [|e es [->| ->] _ IH]; intros σ Hrun;
    simpl in Hrun; [by simplify_eq|..];
    case_decide; [|done| |done]; by apply IH in Hrun.
Qed.

Lemma run_reconnection failures σ :
  conn σ = Connected →
  run (reconnection failures) σ
    = Some (on_connected (set_conn Connecting (attempt σ + failures) σ)).
Proof.
  intros Hc. unfold reconnection. simpl. rewrite decide_True by done.
  assert (Hloop : ∀ n σ1, conn σ1 = Reconnecting →
    run (concat (replicate n [EvConnect; EvConnectFailed]) ++ [EvConnect; EvConnected]) σ1
      = Some (on_connected (set_conn Connecting (attempt σ1 + n) σ1))).
  { induction n as [|n IH]; intros σ1 Hσ1; simpl.
    - rewrite decide_True by auto. simpl. rewrite Nat.add_0_r. done.
    - rewrite decide_True by auto. simpl. rewrite IH by done. simpl.
      rewrite Nat.add_succ_r. reflexivity. }
  rewrite Hloop by done. done.
Qed.

Lemma filter_fst_NoDup {A} (P : Z * A → Prop) `{!∀ x, Decision (P x)} (l : list (Z * A)) :
  NoDup l.*1 → NoDup (filter P l).*1.
Proof.
  intros Hl. eapply sublist_NoDup; [exact Hl|].
  apply fmap_sublist, sublist_filter.
Qed.

Lemma server_view_snoc (cs : list command) (c : command) :
  server_view (cs ++ [c])
    = match kind c with
      | Subscribe => <[cmd_id c := streams c]> (server_view cs)
      | Unsubscribe => delete (cmd_id c) (server_view cs)
      end.
Proof. unfold server_view. by rewrite foldl_snoc. Qed.

Lemma server_view_replay (l : list (Z * subscription Obj)) :
  NoDup l.*1 →
  server_view (replay_command <$> l) = streamNames <$> list_to_map l.
Proof.
  induction l as [|[i s] l IH] using rev_ind; intros Hl.
  - unfold server_view. simpl. by rewrite fmap_empty.
  - rewrite fmap_app in Hl. apply NoDup_app in Hl as (Hl & Hi & _).
    rewrite fmap_app.
    change (replay_command <$> [(i, s)]) with [replay_command (i, s)].
    rewrite server_view_snoc. simpl. rewrite IH by done.
    rewrite list_to_map_snoc, fmap_insert; [done|].
    intros Hin. eapply Hi; [exact Hin|]. simpl. apply list_elem_of_here.
Qed.

Lemma filter_ext_in {A} (P Q : A → Prop) `{!∀ x, Decision (P x), !∀ x, Decision (Q x)}
    (l : list A) :
  (∀ x, x ∈ l → P x ↔ Q x) → filter P l = filter Q l.
Proof.
  induction l as [|x l IH]; intros HPQ; [done|].
  rewrite !filter_cons. rewrite IH by (intros y Hy; apply HPQ; by right).
  pose proof (HPQ x (list_elem_of_here _ _)) as Hx.
  destruct (decide (P x)), (decide (Q x)); [done|exfalso; tauto..|done].
Qed.

Lemma replay_unmarked σ : unmarked σ → replay σ = replay_command <$> snapshot σ.
Proof.
  intros Hσ. unfold replay, snapshot. f_equal. apply filter_ext_in.
  intros [i s] Hin%elem_of_map_to_list. unfold to_replay, is_active. simpl.
  rewrite (Hσ i s Hin). split; [by intros [?|?]|by left].
Qed.

Lemma active_set_lookup σ i :
  active_set σ !! i
    = registry σ !! i ≫= λ s, if decide (state s = Active) then Some (streamNames s) else None.
Proof.
  unfold active_set. rewrite lookup_fmap, map_lookup_filter.
  destruct (registry σ !! i) as [s|]; simpl; [|done].
  unfold is_active. simpl.
  destruct (decide (state s = Active)) as [Hs|Hs];
    [by rewrite option_guard_True | by rewrite option_guard_False].
Qed.

Lemma active_set_on_connected σ : active_set (on_connected σ) = active_set σ.
Proof.
  apply map_eq. intros i. rewrite !active_set_lookup. simpl.
  rewrite lookup_fmap. by destruct (registry σ !! i).
Qed.

Lemma server_view_snapshot σ : server_view (replay_command <$> snapshot σ) = active_set σ.
Proof.
  unfold snapshot, active_set.
  rewrite server_view_replay by apply filter_fst_NoDup, NoDup_fst_map_to_list.
  by rewrite <- map_filter_alt.
Qed.

Lemma add_present id names cb σ :
  ∃ s, registry (add id names cb σ).2 !! id = Some s ∧ state s ≠ Removed.
Proof.
  assert (Hins : ∃ s,
    registry (if decide (conn σ = Connected)
              then enqueue (Command id Subscribe names)
                     (set_registry (<[id:=Subscription names cb Pending false]> (registry σ)) σ)
              else set_registry (<[id:=Subscription names cb Pending true]> (registry σ)) σ)
      !! id = Some s ∧ state s ≠ Removed).
  { destruct (decide (conn σ = Connected)); simpl; rewrite lookup_insert_eq; eauto. }
  unfold add. destruct (registry σ !! id) as [s|] eqn:Hs; [|done].
  destruct (decide (state s = Removed)); simpl; [done|]. eauto.
Qed.

(** C5: a [subscribe] whose id is present in the registry and not
    [Removed] returns [DuplicateSubscriptionId] to the caller and leaves
    the engine, the registry with it, as it was; so the second of two
    [subscribe(id=1, ...)] calls in a row fails with
    [DuplicateSubscriptionId]. *)
Theorem subscribe_duplicate_id σ id names cb s :
  registry σ !! id = Some s → state s ≠ Removed →
  subscribe names id cb σ = (Err DuplicateSubscriptionId, σ)
  ∧ (∀ σ0 names0 cb0,
       subscribe names 1 cb (subscribe names0 1 cb0 σ0).2
         = (Err DuplicateSubscriptionId, (subscribe names0 1 cb0 σ0).2)).
Proof.
  assert (Hdup : ∀ σ1 j s1, registry σ1 !! j = Some s1 → state s1 ≠ Removed →
            subscribe names j cb σ1 = (Err DuplicateSubscriptionId, σ1)).
  { intros σ1 j s1 Hj Hs1. unfold subscribe, add. rewrite Hj.
    by rewrite decide_False. }
  intros Hid Hs. split; [by eapply Hdup|].
  intros σ0 names0 cb0. destruct (add_present 1 names0 cb0 σ0) as (s1 & H1 & Hs1).
  by eapply Hdup.
Qed.

(** C4: from a connected engine, a drop followed by a successful
    reconnection, with no caller action in between, sends on the new
    connection exactly one Subscribe command, with the original id, for
    each subscription that was [Active] before the drop; this happens in
    the step that enters [Connected], before any queued caller command is
    sent, and once it is done the server's view of the connection is the
    registry's active set. *)
Theorem reconnect_replays_active σ failures :
  reachable σ → conn σ = Connected →
  (∃ es σ',
      reconnection failures = EvConnectionLost :: es ++ [EvConnected]
      ∧ Forall is_backoff es
      ∧ run (reconnection failures) σ = Some σ')
  ∧ ∀ es σ',
      Forall is_backoff es →
      run (EvConnectionLost :: es ++ [EvConnected]) σ = Some σ' →
      conn σ' = Connected
      ∧ wire σ' = replay_command <$> snapshot σ
      ∧ (∀ id s, registry σ !! id = Some s → state s = Active →
           Command id Subscribe (streamNames s) ∈ wire σ')
      ∧ NoDup (cmd_id <$> wire σ')
      ∧ queue σ' = queue σ
      ∧ active_set σ' = active_set σ
      ∧ server_view (wire σ') = active_set σ'.
Proof.
  intros Hreach Hconn. split.
  - exists (concat (replicate failures [EvConnect; EvConnectFailed]) ++ [EvConnect]),
      (on_connected (set_conn Connecting (attempt σ + failures) σ)).
    split; [unfold reconnection; by rewrite <- app_assoc|].
    split; [|by apply run_reconnection].
    apply Forall_app. split; [|apply Forall_singleton; by left].
    induction failures as [|n IH]; simpl; [constructor|].
    apply Forall_cons. split; [by left|]. apply Forall_cons. split; [by right|done].
  - intros es σ' Hes Hrun. simpl in Hrun. rewrite decide_True in Hrun by done.
    rewrite run_app in Hrun.
    destruct (run es _) as [σ1|] eqn:Hσ1; simpl in Hrun; [|done].
    apply run_backoff in Hσ1 as (Hreg & Hq & Hp & Hw); [|done]. simpl in *.
    case_decide; simplify_eq.
    assert (Hwire : wire (on_connected σ1) = replay_command <$> snapshot σ).
    { simpl. rewrite replay_unmarked.
      - unfold snapshot. by rewrite Hreg.
      - intros i s Hi. rewrite Hreg in Hi. by eapply reachable_marks. }
    assert (Hact : active_set (on_connected σ1) = active_set σ).
    { rewrite active_set_on_connected. unfold active_set. by rewrite Hreg. }
    split; [done|]. split; [done|]. rewrite Hwire, Hact.
    split; [|split; [|split; [done|split; [done|apply server_view_snapshot]]]].
    + intros i s Hi Hs. apply (list_elem_of_fmap_2' replay_command _ (i, s)); [|done].
      apply list_elem_of_filter. split; [done|]. by apply elem_of_map_to_list.
    + rewrite <- list_fmap_compose.
      apply (filter_fst_NoDup is_active), NoDup_fst_map_to_list.
Qed.

End EngineFacts.

(** The end-to-end example of section 8: after the drop the replay sends
    [SUBSCRIBE id=1 params=[btcusdt@aggTrade]] and nothing else. *)
Example reconnect_example :
  Core.wire <$> Core.run (Core.reconnection 0) Core.example_engine
    = Some [Core.Command 1 Core.Subscribe [lit "btcusdt@aggTrade"]]
  /\ Core.state <$> Core.registry Core.example_engine !! 1 = Some Core.Active.
Proof. split; vm_compute; reflexivity. Qed.

Lemma subscribe_duplicate_id_witness :
  Core.subscribe [lit "btcusdt@aggTrade"] 1 tt Core.example_engine
    = (Core.Err Core.DuplicateSubscriptionId, Core.example_engine).
Proof.
  refine (proj1 (subscribe_duplicate_id Core.example_engine 1 [lit "btcusdt@aggTrade"] tt
                   (Core.Subscription [lit "btcusdt@aggTrade"] tt Core.Active false) _ _)).
  - vm_compute. reflexivity.
  - simpl. discriminate.
Defined.

Lemma reconnect_replays_active_witness :
  ∃ (es : list (Core.event unit)) (σ' : Core.engine unit),
    Core.reconnection 2 = Core.EvConnectionLost :: es ++ [Core.EvConnected]
    ∧ Forall Core.is_backoff es
    ∧ Core.run (Core.reconnection 2) Core.example_engine = Some σ'.
Proof.
  refine (proj1 (reconnect_replays_active Core.example_engine 2 _ _)).
  - exists Core.example_session. vm_compute. reflexivity.
  - vm_compute. reflexivity.
Defined.

(** * Further properties of the stream names *)

(** ** Rendering of [int] arguments *)

Lemma lit_cons (a : ascii) (s : string) : lit (String a s) = N_of_ascii a :: lit s.
Proof. reflexivity. Qed.

Lemma lit_inj (s t : string) : lit s = lit t -> s = t.
Proof.
  revert t. induction s as [|a s IH]; intros [|b t] H; try discriminate H; [done|].
  rewrite !lit_cons in H. injection H as Hab Hst.
  f_equal; [|by apply IH].
  rewrite <- (ascii_N_embedding a), <- (ascii_N_embedding b). by rewrite Hab.
Qed.

Lemma uint_digits (d : Decimal.uint) : Forall is_digit (lit (NilEmpty.string_of_uint d)).
Proof.
  induction d; cbn [NilEmpty.string_of_uint]; [constructor|..];
    rewrite lit_cons; (constructor; [unfold is_digit; vm_compute; split; discriminate|done]).
Qed.

Lemma uint_nonempty (d : Decimal.uint) :
  d <> Decimal.Nil -> lit (NilEmpty.string_of_uint d) <> [].
Proof. destruct d; [done|..]; intros _; cbn [NilEmpty.string_of_uint]; by rewrite lit_cons. Qed.

(** [str(n)] is a non-empty run of digits, after a minus sign when [n] is
    negative. *)
Lemma str_of_int_shape (n : Z) :
  exists ds : str,
    ds <> [] /\ Forall is_digit ds
    /\ (str_of_int n = ds \/ str_of_int n = 0x2D%N :: ds).
Proof.
  unfold str_of_int. destruct n as [|p|p]; cbn [Z.to_int NilZero.string_of_int].
  - exists (lit "0"). split; [by vm_compute|]. split; [|by left].
    apply (uint_digits (Decimal.D0 Decimal.Nil)).
  - pose proof (Unsigned.to_uint_nonnil p) as Hp.
    exists (lit (NilEmpty.string_of_uint (Pos.to_uint p))).
    split; [by apply uint_nonempty|]. split; [apply uint_digits|]. left.
    unfold NilZero.string_of_uint. by destruct (Pos.to_uint p).
  - pose proof (Unsigned.to_uint_nonnil p) as Hp.
    exists (lit (NilEmpty.string_of_uint (Pos.to_uint p))).
    split; [by apply uint_nonempty|]. split; [apply uint_digits|]. right.
    rewrite lit_cons. f_equal.
    unfold NilZero.string_of_uint. by destruct (Pos.to_uint p).
Qed.

Lemma str_of_int_inj (n m : Z) : str_of_int n = str_of_int m -> n = m.
Proof.
  intros H. apply lit_inj in H.
  assert (Hnil : forall k, Z.to_int k <> Decimal.Pos Decimal.Nil
                           /\ Z.to_int k <> Decimal.Neg Decimal.Nil).
  { intros [|p|p]; cbn [Z.to_int]; split; try discriminate; intros [= E];
      by apply (Unsigned.to_uint_nonnil p). }
  assert (E : Some (Z.to_int n) = Some (Z.to_int m)).
  { rewrite <- (NilZero.isi (Z.to_int n)), <- (NilZero.isi (Z.to_int m));
      [by rewrite H|apply Hnil..]. }
  injection E as E. rewrite <- (DecimalZ.of_to n), <- (DecimalZ.of_to m). by rewrite E.
Qed.

Lemma str_of_int_not_in (c : code_point) (n : Z) :
  ~ is_digit c -> c <> 0x2D%N -> c ∉ str_of_int n.
Proof.
  intros Hd Hm Hin. destruct (str_of_int_shape n) as (ds & _ & Hds & [E|E]);
    rewrite E in Hin.
  - rewrite Forall_forall in Hds. by apply Hd, Hds.
  - apply elem_of_cons in Hin as [->|Hin]; [done|].
    rewrite Forall_forall in Hds. by apply Hd, Hds.
Qed.

Lemma str_of_int_last (n : Z) :
  exists (ds : str) (d : code_point), str_of_int n = ds ++ [d] /\ is_digit d.
Proof.
  destruct (str_of_int_shape n) as (ds & Hne & Hds & E).
  destruct ds as [|d0 ds0] using rev_ind; [done|]. clear IHds0.
  apply (proj1 (Forall_app is_digit ds0 [d0])) in Hds as [_ Hd].
  apply (proj1 (Forall_singleton is_digit d0)) in Hd.
  destruct E as [E|E]; rewrite E.
  - by exists ds0, d0.
  - by exists (0x2D%N :: ds0), d0.
Qed.

(** ** Splitting a name at a separator *)

Lemma split_at_first {A : Type} (sep : A) (a a' b b' : list A) :
  a ++ sep :: b = a' ++ sep :: b' -> sep ∉ a -> sep ∉ a' -> a = a' /\ b = b'.
Proof.
  revert a'. induction a as [|c a IH]; intros [|c' a'] H Ha Ha'; simpl in H.
  - by injection H as ->.
  - injection H as -> _. exfalso. apply Ha'. by left.
  - injection H as -> _. exfalso. apply Ha. by left.
  - injection H as -> H. apply IH in H as [-> ->]; [done|..].
    + intros ?. apply Ha. by right.
    + intros ?. apply Ha'. by right.
Qed.

Lemma split_at_last {A : Type} (sep : A) (a a' b b' : list A) :
  a ++ sep :: b = a' ++ sep :: b' -> sep ∉ b -> sep ∉ b' -> a = a' /\ b = b'.
Proof.
  intros H Hb Hb'. apply (f_equal (@rev A)) in H.
  rewrite !rev_app_distr in H. simpl in H. rewrite <- !app_assoc in H. simpl in H.
  assert (Hrev : forall l : list A, sep ∉ l -> sep ∉ rev l).
  { intros l Hl Hin. apply Hl. by apply list_elem_of_In, in_rev, list_elem_of_In. }
  apply split_at_first in H as [H1 H2]; [|by apply Hrev..].
  apply (f_equal (@rev A)) in H1, H2. rewrite !rev_involutive in H1, H2. done.
Qed.

Lemma singleton_inj {A : Type} (a b : A) : [a] = [b] -> a = b.
Proof. congruence. Qed.

Lemma subscribed_snoc_str {Obj : Type} (log : recorder Obj) (s : str) (i : Z) (cb : Obj)
    (kw : kwargs_of Obj) :
  subscribed (log ++ [CallLiveSubscribe (PyStr s) i cb kw]) = subscribed log ++ [s].
Proof. unfold subscribed. by rewrite flat_map_app. Qed.

Lemma subscribed_snoc_list {Obj : Type} (log : recorder Obj) (l : list str) (i : Z)
    (cb : Obj) (kw : kwargs_of Obj) :
  subscribed (log ++ [CallLiveSubscribe (PyList l) i cb kw]) = subscribed log ++ l.
Proof. unfold subscribed. rewrite flat_map_app. simpl. by rewrite app_nil_r. Qed.

Lemma not_in_check (c : code_point) (l : str) :
  forallb (fun x => negb (N.eqb x c)) l = true -> c ∉ l.
Proof.
  intros H Hin. apply list_elem_of_In in Hin.
  rewrite forallb_forall in H. apply H in Hin. by rewrite N.eqb_refl in Hin.
Qed.

Ltac not_in_lit := apply not_in_check; vm_compute; reflexivity.

Ltac not_in_int :=
  apply str_of_int_not_in; [unfold is_digit; lia | discriminate].

(** ** Names that end in a number *)

Lemma speed_suffix_inj (a a' unit : str) (v v' : Z) :
  0x40%N ∉ unit ->
  a ++ 0x40%N :: str_of_int v ++ unit = a' ++ 0x40%N :: str_of_int v' ++ unit ->
  a = a' /\ v = v'.
Proof.
  intros Hu H. apply split_at_last in H as [Ha Hv].
  - split; [done|]. by apply app_inv_tail, str_of_int_inj in Hv.
  - apply not_elem_of_app. split; [not_in_int|done].
  - apply not_elem_of_app. split; [not_in_int|done].
Qed.

(** X1: for symbols within Latin-1, two [mark_price] calls subscribe to the
    same stream exactly when their symbols agree after lowercasing and
    their speeds are equal. *)
Theorem mark_price_same_stream {Obj : Type} (s s' : str) (i i' v v' : Z) (cb cb' : Obj)
    (kw kw' : kwargs_of Obj) :
  is_latin1 s -> is_latin1 s' ->
  subscribed (mark_price [] s i v cb kw) = subscribed (mark_price [] s' i' v' cb' kw')
  <-> lower s = lower s' /\ v = v'.
Proof.
  intros _ _. unfold mark_price, live_subscribe, recording_client.
  rewrite !subscribed_snoc_str. split.
  - intros H. apply singleton_inj in H.
    change (lit "@markPrice@") with (lit "@markPrice" ++ [0x40%N]) in H.
    rewrite <- !(app_assoc (lit "@markPrice")), !(app_assoc (lower _)) in H.
    apply (speed_suffix_inj _ _ (lit "s")) in H as [H ->]; [|not_in_lit].
    by apply app_inv_tail in H.
  - by intros [-> ->].
Qed.

Lemma mark_price_same_stream_witness :
  subscribed (mark_price (B := recording_client unit) [] (lit "BTCUSDT") 1 3 tt [])
    = subscribed (mark_price (B := recording_client unit) [] (lit "btcusdt") 2 3 tt []).
Proof.
  apply (mark_price_same_stream (lit "BTCUSDT") (lit "btcusdt") 1 2 3 3 tt tt [] []);
    [latin1_lit|latin1_lit|].
  split; reflexivity.
Defined.

(** X2: for symbols within Latin-1, two [diff_book_depth] calls subscribe to
    the same stream exactly when their symbols agree after lowercasing and
    their speeds are equal. *)
Theorem diff_book_depth_same_stream {Obj : Type} (s s' : str) (i i' v v' : Z)
    (cb cb' : Obj) (kw kw' : kwargs_of Obj) :
  is_latin1 s -> is_latin1 s' ->
  subscribed (diff_book_depth [] s i v cb kw)
    = subscribed (diff_book_depth [] s' i' v' cb' kw')
  <-> lower s = lower s' /\ v = v'.
Proof.
  intros _ _. unfold diff_book_depth, live_subscribe, recording_client.
  rewrite !subscribed_snoc_str. split.
  - intros H. apply singleton_inj in H.
    change (lit "@depth@") with (lit "@depth" ++ [0x40%N]) in H.
    rewrite <- !(app_assoc (lit "@depth")), !(app_assoc (lower _)) in H.
    apply (speed_suffix_inj _ _ (lit "ms")) in H as [H ->]; [|not_in_lit].
    by apply app_inv_tail in H.
  - by intros [-> ->].
Qed.

Lemma diff_book_depth_same_stream_witness :
  subscribed (diff_book_depth (B := recording_client unit) [] (lit "BTCUSDT") 1 100 tt [])
    = subscribed (diff_book_depth (B := recording_client unit) [] (lit "btcusdt") 2 100
                    tt []).
Proof.
  apply (diff_book_depth_same_stream (lit "BTCUSDT") (lit "btcusdt") 1 2 100 100 tt tt [] []);
    [latin1_lit|latin1_lit|].
  split; reflexivity.
Defined.

Lemma partial_name_split (s : str) (level speed : Z) :
  lower s ++ lit "@depth" ++ str_of_int level ++ lit "@" ++ str_of_int speed ++ lit "ms"
  = ((lower s ++ lit "@dept") ++ 0x68%N :: str_of_int level)
      ++ 0x40%N :: str_of_int speed ++ lit "ms".
Proof. rewrite <- !app_assoc. reflexivity. Qed.

Lemma partial_name_inj (s s' : str) (level level' speed speed' : Z) :
  lower s ++ lit "@depth" ++ str_of_int level ++ lit "@" ++ str_of_int speed ++ lit "ms"
  = lower s' ++ lit "@depth" ++ str_of_int level' ++ lit "@" ++ str_of_int speed'
      ++ lit "ms" ->
  lower s = lower s' /\ level = level' /\ speed = speed'.
Proof.
  rewrite !partial_name_split. intros H.
  apply (speed_suffix_inj _ _ (lit "ms")) in H as [H ->]; [|not_in_lit].
  apply split_at_last in H as [H Hl]; [|not_in_int..].
  apply app_inv_tail in H. by apply str_of_int_inj in Hl.
Qed.

(** X3: for symbols within Latin-1, two [partial_book_depth] calls on single
    symbols subscribe to the same stream exactly when the symbols agree
    after lowercasing and the levels and the speeds are equal; for two
    lists of the same streams the lowercased symbols agree one by one and,
    unless the lists are empty, so do level and speed. *)
Theorem partial_book_depth_same_stream {Obj : Type} (i i' level level' speed speed' : Z)
    (cb cb' : Obj) (kw kw' : kwargs_of Obj) :
  (forall s s' : str,
      is_latin1 s -> is_latin1 s' ->
      subscribed (partial_book_depth [] (PyStr s) i level speed cb kw)
        = subscribed (partial_book_depth [] (PyStr s') i' level' speed' cb' kw')
      <-> lower s = lower s' /\ level = level' /\ speed = speed')
  /\ (forall l l' : list str,
        Forall is_latin1 l -> Forall is_latin1 l' ->
        subscribed (partial_book_depth [] (PyList l) i level speed cb kw)
          = subscribed (partial_book_depth [] (PyList l') i' level' speed' cb' kw')
        <-> map lower l = map lower l'
            /\ (l = [] \/ (level = level' /\ speed = speed'))).
Proof.
  unfold partial_book_depth, live_subscribe, recording_client. split.
  - intros s s' _ _. rewrite !subscribed_snoc_str. split.
    + intros H. by apply singleton_inj, partial_name_inj in H.
    + by intros (-> & -> & ->).
  - intros l l' _ _. rewrite !subscribed_snoc_list. cbn [subscribed flat_map app]. split.
    + revert l'. induction l as [|s l IH]; intros [|s' l'] H; try discriminate H.
      * split; [done|by left].
      * rewrite !map_cons in H. injection H as Hs Hl.
        apply partial_name_inj in Hs as (Hs & -> & ->).
        apply IH in Hl as [Hl _]. rewrite !map_cons, Hs, Hl. split; [done|by right].
    + intros [Hl [->|[-> ->]]].
      * destruct l'; [done|discriminate Hl].
      * rewrite <- !(map_map lower (fun t => t ++ _)). by rewrite Hl.
Qed.

Lemma partial_book_depth_same_stream_witness :
  subscribed (partial_book_depth (B := recording_client unit) []
                (PyStr (lit "BTCUSDT")) 1 10 100 tt [])
    = subscribed (partial_book_depth (B := recording_client unit) []
                    (PyStr (lit "btcusdt")) 2 10 100 tt [])
  /\ subscribed (partial_book_depth (B := recording_client unit) []
                   (PyList [lit "BNBUSDT"; lit "ETHusdt"]) 1 10 100 tt [])
       = subscribed (partial_book_depth (B := recording_client unit) []
                       (PyList [lit "bnbusdt"; lit "ethUSDT"]) 2 10 100 tt []).
Proof.
  split.
  - apply (proj1 (partial_book_depth_same_stream 1 2 10 10 100 100 tt tt [] [])
             (lit "BTCUSDT") (lit "btcusdt")); [latin1_lit|latin1_lit|].
    repeat split.
  - apply (proj2 (partial_book_depth_same_stream 1 2 10 10 100 100 tt tt [] [])
             [lit "BNBUSDT"; lit "ETHusdt"] [lit "bnbusdt"; lit "ethUSDT"]).
    + apply Forall_cons_2; [latin1_lit|]. apply Forall_cons_2; [latin1_lit|].
      apply Forall_nil_2.
    + apply Forall_cons_2; [latin1_lit|]. apply Forall_cons_2; [latin1_lit|].
      apply Forall_nil_2.
    + split; [reflexivity|]. right. split; reflexivity.
Defined.

(** X4: [partial_book_depth] on a list subscribes to the streams that calls
    on each of its symbols alone subscribe to, in the order of the list; on
    an empty list it still makes its one [live_subscribe] call, with an
    empty list of streams. *)
Theorem partial_book_depth_list_of_singles {Obj : Type} (log : recorder Obj)
    (i level speed : Z) (cb : Obj) (kw : kwargs_of Obj) :
  (forall symbols : list str,
      subscribed (partial_book_depth log (PyList symbols) i level speed cb kw)
      = subscribed log
          ++ flat_map (fun s => subscribed
                                  (partial_book_depth [] (PyStr s) i level speed cb kw))
               symbols)
  /\ partial_book_depth log (PyList []) i level speed cb kw
       = log ++ [CallLiveSubscribe (PyList []) i cb kw].
Proof.
  split; [|reflexivity]. intros symbols.
  unfold partial_book_depth, live_subscribe, recording_client.
  rewrite subscribed_snoc_list. apply (f_equal (app (subscribed log))).
  induction symbols as [|s symbols IH]; [done|].
  rewrite map_cons. cbn [flat_map]. rewrite subscribed_snoc_str, <- IH. done.
Qed.

Lemma partial_diff_names_differ (s s' : str) (level speed speed' : Z) :
  lower s ++ lit "@depth" ++ str_of_int level ++ lit "@" ++ str_of_int speed ++ lit "ms"
  <> lower s' ++ lit "@depth@" ++ str_of_int speed' ++ lit "ms".
Proof.
  intros H. rewrite partial_name_split in H.
  change (lit "@depth@") with (lit "@dept" ++ [0x68%N] ++ [0x40%N]) in H.
  rewrite <- !(app_assoc (lit "@dept")), !(app_assoc (lower _)) in H.
  rewrite <- !(app_assoc [0x68%N]), !(app_assoc (lower s' ++ _)) in H.
  apply (speed_suffix_inj _ _ (lit "ms")) in H as [H _]; [|not_in_lit].
  destruct (str_of_int_last level) as (ds & d & E & Hd). rewrite E in H.
  change (0x68%N :: ds ++ [d]) with ((0x68%N :: ds) ++ [d]) in H.
  rewrite app_assoc in H. apply app_inj_tail in H as [_ ->].
  unfold is_digit in Hd. lia.
Qed.

(** X5: no stream that [partial_book_depth] subscribes to, for a single
    symbol or a list, is a stream that [diff_book_depth] subscribes to,
    whatever the symbols, levels and speeds. *)
Theorem partial_never_diff_depth {Obj : Type} (symbols : str_or_list) (s' : str)
    (i i' level speed speed' : Z) (cb cb' : Obj) (kw kw' : kwargs_of Obj) :
  Forall (fun n => n ∉ subscribed (diff_book_depth [] s' i' speed' cb' kw'))
    (subscribed (partial_book_depth [] symbols i level speed cb kw)).
Proof.
  unfold partial_book_depth, diff_book_depth, live_subscribe, recording_client.
  rewrite subscribed_snoc_str. apply Forall_forall. intros n Hn Hin.
  apply list_elem_of_singleton in Hin as ->.
  destruct symbols as [s|l].
  - rewrite subscribed_snoc_str in Hn. apply list_elem_of_singleton in Hn.
    symmetry in Hn. by apply partial_diff_names_differ in Hn.
  - rewrite subscribed_snoc_list in Hn. apply list_elem_of_fmap in Hn as (s & Hs & _).
    symmetry in Hs. by apply partial_diff_names_differ in Hs.
Qed.

(** ** Names that end in a fixed suffix *)

Ltac name_clash H :=
  apply singleton_inj in H; apply (f_equal (@rev code_point)) in H;
  rewrite ?rev_app_distr in H; vm_compute in H; discriminate H.

(** X6: with a symbol, the empty string included, [mini_ticker], [ticker],
    [book_ticker] and [liquidation_order] never subscribe to any of the
    four all-market streams: only [symbol=None] selects those. *)
Theorem symbol_never_all_market {Obj : Type} (s : str) (i i' : Z) (cb cb' : Obj)
    (kw kw' : kwargs_of Obj) :
  let with_symbol :=
    subscribed (mini_ticker [] i cb (Some s) kw)
      ++ subscribed (ticker [] i cb (Some s) kw)
      ++ subscribed (book_ticker [] i cb (Some s) kw)
      ++ subscribed (liquidation_order [] i cb (Some s) kw) in
  let all_market :=
    subscribed (mini_ticker [] i' cb' None kw')
      ++ subscribed (ticker [] i' cb' None kw')
      ++ subscribed (book_ticker [] i' cb' None kw')
      ++ subscribed (liquidation_order [] i' cb' None kw') in
  Forall (fun n => n ∉ all_market) with_symbol
  /\ subscribed (mini_ticker [] i cb (Some []) kw) = [lit "@miniTicker"].
Proof.
  split; [|reflexivity].
  unfold mini_ticker, ticker, book_ticker, liquidation_order, live_subscribe,
    recording_client.
  rewrite !subscribed_snoc_str. cbn [subscribed flat_map app].
  repeat apply Forall_cons_2; [..|apply Forall_nil_2];
    intros Hin; rewrite !elem_of_cons in Hin;
    destruct Hin as [H|[H|[H|[H|H]]]]; try (by apply elem_of_nil in H);
    apply (f_equal (fun x => [x])) in H; name_clash H.
Qed.

(** X7: among [agg_trade], [mini_ticker], [ticker], [book_ticker],
    [liquidation_order] and [composite_index], with symbols within Latin-1,
    two calls subscribe to the same stream exactly when they are calls of
    the same method whose symbols agree after lowercasing (both without
    symbol, for the all-market form). *)
Theorem suffix_methods_same_stream {Obj : Type} (m m' : method_call Obj) :
  fixed_suffix (method_of m) = true -> fixed_suffix (method_of m') = true ->
  Forall is_latin1 (symbol_arguments m) -> Forall is_latin1 (symbol_arguments m') ->
  subscribed (invoke [] m) = subscribed (invoke [] m')
  <-> method_of m = method_of m'
      /\ map lower (symbol_arguments m) = map lower (symbol_arguments m').
Proof.
  intros Hk Hk' _ _.
  destruct m as [| | | | ? ? [s|] ?| ? ? [s|] ?| ? ? [s|] ?| ? ? [s|] ?| | | |];
    try discriminate Hk;
    (destruct m' as [| | | | ? ? [s'|] ?| ? ? [s'|] ?| ? ? [s'|] ?| ? ? [s'|] ?| | | |];
     try discriminate Hk');
    cbn [invoke method_of symbol_arguments option_list option_rect map];
    unfold agg_trade, mini_ticker, ticker, book_ticker, liquidation_order,
      composite_index, live_subscribe, recording_client;
    rewrite !subscribed_snoc_str; cbn [subscribed flat_map app];
    (split;
     [ intros H;
       first [ by (apply singleton_inj, app_inv_tail in H; rewrite H)
             | done
             | exfalso; name_clash H ]
     | intros [Hm Hs]; try discriminate Hm; try discriminate Hs;
       try (apply singleton_inj in Hs; rewrite Hs); reflexivity ]).
Qed.

Lemma suffix_methods_same_stream_witness :
  subscribed (invoke (B := recording_client unit) []
                (Ticker 1 tt (Some (lit "BTCUSDT")) []))
    = subscribed (invoke (B := recording_client unit) []
                    (Ticker 2 tt (Some (lit "btcusdt")) [])).
Proof.
  apply (suffix_methods_same_stream
           (Ticker 1 tt (Some (lit "BTCUSDT")) []) (Ticker 2 tt (Some (lit "btcusdt")) []));
    [reflexivity|reflexivity| | |].
  - apply Forall_cons_2; [latin1_lit|apply Forall_nil_2].
  - apply Forall_cons_2; [latin1_lit|apply Forall_nil_2].
  - split; reflexivity.
Defined.

(** ** Klines *)

Lemma intervals_no_underscore (iv : str) : iv ∈ intervals -> 0x5F%N ∉ iv.
Proof.
  assert (H : Forall (fun iv : str => 0x5F%N ∉ iv) intervals).
  { unfold intervals. repeat apply Forall_cons_2; [..|apply Forall_nil_2]; not_in_lit. }
  rewrite Forall_forall in H. apply H.
Qed.

Lemma lower_no_underscore (s : str) : 0x5F%N ∉ s -> 0x5F%N ∉ lower s.
Proof.
  induction s as [|c s IH]; intros Hs; [done|].
  apply not_elem_of_cons in Hs as [Hc Hs]. rewrite lower_cons.
  apply not_elem_of_app. split; [|by apply IH].
  unfold lower_cp, in_range.
  repeat match goal with
         | |- context [N.leb ?a ?b] => destruct (N.leb_spec a b)
         | |- context [N.eqb ?a ?b] => destruct (N.eqb_spec a b)
         end; simpl;
    intros Hin; apply list_elem_of_singleton in Hin; lia.
Qed.

(** X8: for symbols within Latin-1 and intervals of the docstring's list,
    two [kline] calls subscribe to the same stream exactly when the symbols
    agree after lowercasing and the intervals are the same string ([1m]
    and [1M] differ). *)
Theorem kline_same_stream {Obj : Type} (s s' interval interval' : str) (i i' : Z)
    (cb cb' : Obj) (kw kw' : kwargs_of Obj) :
  is_latin1 s -> is_latin1 s' -> interval ∈ intervals -> interval' ∈ intervals ->
  subscribed (kline [] s i interval cb kw) = subscribed (kline [] s' i' interval' cb' kw')
  <-> lower s = lower s' /\ interval = interval'.
Proof.
  intros _ _ Hiv%intervals_no_underscore Hiv'%intervals_no_underscore.
  unfold kline, live_subscribe, recording_client.
  rewrite !subscribed_snoc_str. split.
  - intros H. apply singleton_inj in H.
    change (lit "@kline_") with (lit "@kline" ++ [0x5F%N]) in H.
    rewrite <- !(app_assoc (lit "@kline")), !(app_assoc (lower _)) in H.
    apply split_at_last in H as [H ->]; [|done..].
    by apply app_inv_tail in H.
  - by intros [-> ->].
Qed.

Lemma kline_same_stream_witness :
  subscribed (kline (B := recording_client unit) [] (lit "BTCUSDT") 1 (lit "1m") tt [])
    = subscribed (kline (B := recording_client unit) [] (lit "btcusdt") 2 (lit "1m") tt []).
Proof.
  apply (kline_same_stream (lit "BTCUSDT") (lit "btcusdt") (lit "1m") (lit "1m")).
  - latin1_lit.
  - latin1_lit.
  - apply list_elem_of_here.
  - apply list_elem_of_here.
  - split; reflexivity.
Defined.

(** X9: for pairs within Latin-1 that have no underscore and intervals of
    the docstring's list, two [continuous_kline] calls subscribe to the same
    stream exactly when the pairs agree after lowercasing and contract type
    and interval are the same strings; a pair with an underscore can give
    the stream of another pair and contract type. *)
Theorem continuous_kline_same_stream {Obj : Type}
    (pair pair' contractType contractType' interval interval' : str) (i i' : Z)
    (cb cb' : Obj) (kw kw' : kwargs_of Obj) :
  is_latin1 pair -> is_latin1 pair' ->
  0x5F%N ∉ pair -> 0x5F%N ∉ pair' -> interval ∈ intervals -> interval' ∈ intervals ->
  (subscribed (continuous_kline [] pair i contractType interval cb kw)
     = subscribed (continuous_kline [] pair' i' contractType' interval' cb' kw')
   <-> lower pair = lower pair' /\ contractType = contractType' /\ interval = interval')
  /\ subscribed (continuous_kline [] (lit "btcusdt_current") i (lit "quarter")
                   interval cb kw)
       = subscribed (continuous_kline [] (lit "btcusdt") i (lit "current_quarter")
                       interval cb kw).
Proof.
  intros _ _ Hp%lower_no_underscore Hp'%lower_no_underscore
    Hiv%intervals_no_underscore Hiv'%intervals_no_underscore.
  unfold continuous_kline, live_subscribe, recording_client.
  rewrite !subscribed_snoc_str. split; [split|].
  - intros H. apply singleton_inj in H.
    change (lit "@continuousKline_") with (lit "@continuousKline" ++ [0x5F%N]) in H.
    rewrite <- !(app_assoc (lit "@continuousKline")) in H.
    rewrite !(app_assoc contractType), !(app_assoc contractType'),
      !(app_assoc (lit "_")), !(app_assoc (lower _)) in H.
    apply split_at_last in H as [H ->]; [|done..].
    apply app_inv_tail in H. rewrite <- !app_assoc in H.
    apply split_at_first in H as [-> ->]; done.
  - by intros (-> & -> & ->).
  - reflexivity.
Qed.

Lemma continuous_kline_same_stream_witness :
  subscribed (continuous_kline (B := recording_client unit) []
                (lit "BTCUSDT") 1 (lit "current_quarter") (lit "1M") tt [])
    = subscribed (continuous_kline (B := recording_client unit) []
                    (lit "btcusdt") 2 (lit "current_quarter") (lit "1M") tt []).
Proof.
  apply (proj1 (continuous_kline_same_stream (lit "BTCUSDT") (lit "btcusdt")
                  (lit "current_quarter") (lit "current_quarter") (lit "1M") (lit "1M")
                  1 2 tt tt [] []
                  ltac:(latin1_lit) ltac:(latin1_lit)
                  ltac:(not_in_lit) ltac:(not_in_lit)
                  ltac:(unfold intervals;
                        repeat first [apply list_elem_of_here | apply list_elem_of_further])
                  ltac:(unfold intervals;
                        repeat first [apply list_elem_of_here | apply list_elem_of_further]))).
  repeat split.
Defined.

(** ** Character sets *)

Lemma is_ascii_check (l : str) : forallb (fun c => N.ltb c 128) l = true -> is_ascii l.
Proof.
  intros H. apply Forall_forall. intros c Hc%list_elem_of_In.
  rewrite forallb_forall in H. by apply N.ltb_lt, H.
Qed.

Lemma is_ascii_app (a b : str) : is_ascii a -> is_ascii b -> is_ascii (a ++ b).
Proof. intros Ha Hb. by apply Forall_app_2. Qed.

Lemma is_ascii_lower (s : str) : is_ascii s -> is_ascii (lower s).
Proof.
  induction 1 as [|c s Hc _ IH]; [constructor|].
  rewrite lower_cons. apply is_ascii_app; [|done].
  rewrite lower_cp_ascii by done. unfold in_range.
  destruct (N.leb_spec 0x41%N c), (N.leb_spec c 0x5A%N); simpl;
    (apply Forall_cons_2; [lia|apply Forall_nil_2]).
Qed.

Lemma is_ascii_str_of_int (n : Z) : is_ascii (str_of_int n).
Proof.
  destruct (str_of_int_shape n) as (ds & _ & Hds & [-> | ->]).
  - eapply Forall_impl; [exact Hds|]. unfold is_digit. intros c Hc. simpl. lia.
  - constructor; [done|].
    eapply Forall_impl; [exact Hds|]. unfold is_digit. intros c Hc. simpl. lia.
Qed.

Ltac solve_ascii :=
  repeat first
    [ assumption
    | apply is_ascii_lower
    | apply is_ascii_str_of_int
    | apply is_ascii_app
    | apply is_ascii_check; vm_compute; reflexivity ].

(** X10: when every string argument of a call is ASCII, every stream name
    the call passes to [live_subscribe] is ASCII, for each of the twelve
    methods. *)
Theorem ascii_arguments_ascii_streams {Obj : Type} (m : method_call Obj) :
  Forall is_ascii (str_arguments m) -> Forall is_ascii (subscribed (invoke [] m)).
Proof.
  intros Hm.
  destruct m as [| | | | ? ? [s|] ?| ? ? [s|] ?| ? ? [s|] ?| ? ? [s|] ?
                | [s|l] ? ? ? ? ?| | |];
    cbn [str_arguments symbol_arguments option_list option_rect] in Hm;
    cbn [invoke];
    unfold agg_trade, mark_price, kline, continuous_kline, mini_ticker, ticker,
      book_ticker, liquidation_order, partial_book_depth, diff_book_depth,
      composite_index, user_data, live_subscribe, recording_client;
    rewrite ?subscribed_snoc_str, ?subscribed_snoc_list;
    cbn [subscribed flat_map app];
    repeat match goal with
           | H : Forall is_ascii (_ :: _) |- _ => apply Forall_cons in H as [? H]
           end;
    try (apply Forall_cons_2; [|apply Forall_nil_2]; solve_ascii; fail).
  apply (proj2 (Forall_forall is_ascii _)). intros n Hn.
  apply list_elem_of_fmap in Hn as (s & -> & Hs).
  apply (proj1 (Forall_forall is_ascii l) Hm) in Hs. solve_ascii.
Qed.

Lemma ascii_arguments_ascii_streams_witness :
  Forall is_ascii
    (subscribed (invoke (B := recording_client unit) []
                   (ContinuousKline (lit "BTCUSDT") 1 (lit "perpetual") (lit "1m") tt []))).
Proof.
  apply (ascii_arguments_ascii_streams
           (ContinuousKline (lit "BTCUSDT") 1 (lit "perpetual") (lit "1m") tt [])).
  repeat (apply Forall_cons_2; [apply is_ascii_check; vm_compute; reflexivity|]).
  apply Forall_nil_2.
Defined.

Lemma lower_lower_cp (c : code_point) : (c < 256)%N -> lower (lower_cp c) = lower_cp c.
Proof.
  intros Hc.
  assert (Hfix : forall x : code_point,
             (0x61 <= x <= 0x7A)%N \/ (0xE0 <= x)%N \/ lower_cp x = [x] -> lower [x] = [x]).
  { intros x Hx. rewrite lower_cons. change (lower []) with (@nil code_point).
    rewrite app_nil_r. destruct Hx as [Hx|[Hx|Hx]]; [..|done]; unfold lower_cp, in_range.
    - destruct (N.leb_spec 0x41%N x), (N.leb_spec x 0x5A%N); try lia; simpl;
        destruct (N.leb_spec 0xC0%N x); try lia; reflexivity.
    - destruct (N.leb_spec 0x41%N x), (N.leb_spec x 0x5A%N); try lia; simpl;
        destruct (N.leb_spec 0xC0%N x), (N.leb_spec x 0xDE%N); try lia; reflexivity. }
  unfold lower_cp at 2. unfold lower_cp at 1. unfold in_range.
  destruct (N.leb_spec 0x41%N c), (N.leb_spec c 0x5A%N); simpl;
    try (apply Hfix; lia);
    destruct (N.leb_spec 0xC0%N c), (N.leb_spec c 0xDE%N); simpl;
    try (destruct (N.eqb_spec c 0xD7%N); simpl);
    apply Hfix; first [lia | right; right; unfold lower_cp, in_range ].
  all: repeat match goal with
           | |- context [N.leb ?a ?b] => destruct (N.leb_spec a b)
           | |- context [N.eqb ?a ?b] => destruct (N.eqb_spec a b)
           end; simpl; try reflexivity; lia.
Qed.

Lemma lower_lower (s : str) : is_latin1 s -> lower (lower s) = lower s.
Proof.
  induction 1 as [|c s Hc _ IH]; [reflexivity|].
  rewrite lower_cons, lower_app, IH, lower_lower_cp; done.
Qed.

(** X11: for symbols within Latin-1, lowercasing the symbol or pair before
    the call changes nothing: each method makes the same [live_subscribe]
    call for [s.lower()] as for [s]. *)
Theorem lowercased_symbol_same_call {Obj : Type} (m : method_call Obj)
    (log : recorder Obj) :
  Forall is_latin1 (symbol_arguments m) ->
  invoke log (map_symbols lower m) = invoke log m.
Proof.
  intros Hm. apply invoke_lowercased.
  destruct m as [| | | | ? ? [s|] ?| ? ? [s|] ?| ? ? [s|] ?| ? ? [s|] ?
                | [s|l] ? ? ? ? ?| | |];
    cbn [map_symbols fmap option_fmap option_map];
    cbn [symbol_arguments option_list option_rect] in Hm;
    try reflexivity;
    try (apply Forall_cons in Hm as [Hs _]; by rewrite lower_lower).
  rewrite map_map. do 2 f_equal. apply map_ext_Forall.
  eapply Forall_impl; [exact Hm|]. intros s Hs. by apply lower_lower.
Qed.

Lemma lowercased_symbol_same_call_witness :
  invoke (B := recording_client unit) []
    (map_symbols lower (AggTrade (lit "BTCUSDT") 1 tt []))
  = invoke [] (AggTrade (lit "BTCUSDT") 1 tt []).
Proof.
  apply (lowercased_symbol_same_call (AggTrade (lit "BTCUSDT") 1 tt []) []).
  apply Forall_cons_2; [|apply Forall_nil_2]. apply Forall_forall. intros c Hc.
  apply list_elem_of_In in Hc. vm_compute in Hc.
  repeat (destruct Hc as [<-|Hc]; [reflexivity|]). destruct Hc.
Defined.


(** ** Methods apart *)

Ltac names_differ H :=
  repeat match type of H with
         | context [str_of_int ?v] =>
             let E := fresh "E" in
             destruct (str_of_int_last v) as (? & ? & E & ?); rewrite E in H; clear E
         end;
  apply (f_equal (@rev code_point)) in H; rewrite ?rev_app_distr in H;
  vm_compute in H;
  first [ discriminate H | injection H; intros; subst; unfold is_digit in *; lia ].

(** X12: leaving aside [kline], [continuous_kline] and [user_data], whose
    stream names end in a string the caller supplies, calls of two
    different methods never subscribe to a common stream, whatever their
    arguments. *)
Theorem different_methods_different_streams {Obj : Type} (m m' : method_call Obj)
    (n : str) :
  caller_suffix (method_of m) = false -> caller_suffix (method_of m') = false ->
  n ∈ subscribed (invoke [] m) -> n ∈ subscribed (invoke [] m') ->
  method_of m = method_of m'.
Proof.
  intros Hk Hk' Hn Hn'.
  destruct m as [| | | | ? ? [s|] ?| ? ? [s|] ?| ? ? [s|] ?| ? ? [s|] ?
                | [s|l] ? ? ? ? ?| | |];
    try discriminate Hk;
    (destruct m' as [| | | | ? ? [s'|] ?| ? ? [s'|] ?| ? ? [s'|] ?| ? ? [s'|] ?
                    | [s'|l'] ? ? ? ? ?| | |];
     try discriminate Hk');
    cbn [method_of]; try reflexivity; exfalso;
    cbn [invoke] in Hn, Hn';
    unfold agg_trade, mark_price, mini_ticker, ticker, book_ticker, liquidation_order,
      partial_book_depth, diff_book_depth, composite_index, live_subscribe,
      recording_client in Hn, Hn';
    rewrite ?subscribed_snoc_str, ?subscribed_snoc_list in Hn;
    rewrite ?subscribed_snoc_str, ?subscribed_snoc_list in Hn';
    cbn [subscribed flat_map app] in Hn, Hn';
    first [ apply list_elem_of_singleton in Hn
          | apply list_elem_of_fmap in Hn as (? & Hn & _) ];
    first [ apply list_elem_of_singleton in Hn'
          | apply list_elem_of_fmap in Hn' as (? & Hn' & _) ];
    rewrite Hn in Hn';
    first [ by apply partial_diff_names_differ in Hn'
          | by (symmetry in Hn'; apply partial_diff_names_differ in Hn')
          | names_differ Hn' ].
Qed.

Lemma different_methods_different_streams_witness :
  method_of (PartialBookDepth (Obj := unit) (PyList [lit "BTCUSDT"]) 1 10 100 tt [])
  = method_of (PartialBookDepth (Obj := unit) (PyStr (lit "btcusdt")) 2 10 100 tt []).
Proof.
  apply (different_methods_different_streams
           (PartialBookDepth (PyList [lit "BTCUSDT"]) 1 10 100 tt [])
           (PartialBookDepth (PyStr (lit "btcusdt")) 2 10 100 tt [])
           (lit "btcusdt@depth10@100ms")); try reflexivity; apply list_elem_of_here.
Defined.
